(** * labd/js-toolkit, [src/i18n.ts]: locale fallback lookup, locale parsing
      and full-name formatting.

    The three exported functions [getLocalizedValue], [parseLocale] and
    [formatFullname] are embedded below as executable Rocq functions,
    together with the pieces of the JavaScript platform they call:
    [String.prototype.toLowerCase], the [in] operator, property read,
    [for ... in] enumeration, [Array.prototype.includes] and the
    [Intl.Locale] constructor of ECMA-402.

    Modelling conventions.
    - A JavaScript string is a [string]: a sequence of code units, each
      below 256 (U+0000 .. U+00FF).  Locale identifiers are ASCII.
    - A call either returns a value or throws: [completion].
    - [T | undefined] is [option T], with [None] for [undefined].
    - The [values] object is an ordinary object: the list of its own
      enumerable string-keyed data properties, in creation order, with
      [Object.prototype] as its prototype.  The members it inherits from
      there are seen by [in] and by property read, and are not enumerable.
      The keys of an object are pairwise distinct; no result below
      depends on it.
    - [getLocalizedValue] runs against a store that holds the object and
      the list of calls made to [parseLocale]; every operation receives
      the store and hands it on. *)

From Stdlib Require Import Bool List Arith NArith Lia.
From Stdlib Require Import Strings.Ascii Strings.String.
Import ListNotations.

Open Scope string_scope.
Open Scope list_scope.

(* ================================================================== *)
(** ** Completions *)

Inductive error : Type :=
| RangeError.

Inductive completion (A : Type) : Type :=
| Normal (a : A)
| Throw (e : error).

Arguments Normal {A} a.
Arguments Throw {A} e.

(* ================================================================== *)
(** ** Characters and strings *)

Definition code (c : ascii) : N := N_of_ascii c.

Definition in_range (lo hi : N) (c : ascii) : bool :=
  ((lo <=? code c) && (code c <=? hi))%N.

Definition is_digit (c : ascii) : bool := in_range 48 57 c.
Definition is_upper_alpha (c : ascii) : bool := in_range 65 90 c.
Definition is_lower_alpha (c : ascii) : bool := in_range 97 122 c.

(** ASCII case mappings of ECMA-402: only [A-Z] and [a-z] move. *)
Definition ascii_lower_char (c : ascii) : ascii :=
  if is_upper_alpha c then ascii_of_N (code c + 32) else c.

Definition ascii_upper_char (c : ascii) : ascii :=
  if is_lower_alpha c then ascii_of_N (code c - 32) else c.

(** Lower-case mapping of the Unicode character database for a code unit
    below 256: [A-Z], and U+00C0 .. U+00DE except the multiplication sign
    U+00D7, move up by 32; every other code unit is its own lower case. *)
Definition lower_char (c : ascii) : ascii :=
  if is_upper_alpha c || (in_range 192 222 c && negb (code c =? 215)%N)
  then ascii_of_N (code c + 32)
  else c.

Fixpoint map_string (f : ascii -> ascii) (s : string) : string :=
  match s with
  | EmptyString => EmptyString
  | String c rest => String (f c) (map_string f rest)
  end.

Fixpoint all_chars (p : ascii -> bool) (s : string) : bool :=
  match s with
  | EmptyString => true
  | String c rest => p c && all_chars p rest
  end.

(** [String.prototype.toLowerCase]. *)
Definition toLowerCase (s : string) : string := map_string lower_char s.

Definition ascii_lowercase (s : string) : string := map_string ascii_lower_char s.
Definition ascii_uppercase (s : string) : string := map_string ascii_upper_char s.

(** First letter upper case, the others lower case (script subtags). *)
Definition ascii_titlecase (s : string) : string :=
  match s with
  | EmptyString => EmptyString
  | String c rest => String (ascii_upper_char c) (ascii_lowercase rest)
  end.

(** The subtags of a tag: the pieces between its hyphens. *)
Fixpoint split_hyphen (s : string) : list string :=
  match s with
  | EmptyString => [EmptyString]
  | String c rest =>
      match split_hyphen rest with
      | [] => [String c EmptyString]
      | tok :: toks =>
          if (c =? "-")%char then EmptyString :: tok :: toks
          else String c tok :: toks
      end
  end.

Definition mem_string (s : string) (l : list string) : bool :=
  existsb (String.eqb s) l.

Fixpoint no_duplicates (l : list string) : bool :=
  match l with
  | [] => true
  | s :: rest => negb (mem_string s rest) && no_duplicates rest
  end.

(* ================================================================== *)
(** ** [Intl.Locale] (ECMA-402)

    [new Intl.Locale(tag)] with a string [tag] and no options throws a
    [RangeError] unless [tag] is a structurally valid language tag
    (IsStructurallyValidLanguageTag: the ASCII-lower-cased tag matches the
    [unicode_locale_id] grammar of UTS 35 without its backward-compatibility
    forms, and repeats neither a variant nor an extension singleton), and
    otherwise holds the tag in canonical case: language in lower case,
    script in title case, region in upper case.  The replacement of
    deprecated subtags through the CLDR alias tables, which canonicalisation
    applies after the case mapping, is data of the platform and is not part
    of this model. *)

Record Locale : Type := mkLocale {
  language : string;
  script : option string;
  region : option string
}.

Definition length_in (lo hi : nat) (s : string) : bool :=
  (lo <=? String.length s)%nat && (String.length s <=? hi)%nat.

(** [unicode_language_subtag = alpha{2,3} | alpha{5,8}] *)
Definition is_language_subtag (t : string) : bool :=
  all_chars is_lower_alpha t && (length_in 2 3 t || length_in 5 8 t).

(** [unicode_script_subtag = alpha{4}] *)
Definition is_script_subtag (t : string) : bool :=
  all_chars is_lower_alpha t && length_in 4 4 t.

(** [unicode_region_subtag = alpha{2} | digit{3}] *)
Definition is_region_subtag (t : string) : bool :=
  (all_chars is_lower_alpha t && length_in 2 2 t)
  || (all_chars is_digit t && length_in 3 3 t).

Definition is_lower_alphanum (c : ascii) : bool := is_lower_alpha c || is_digit c.

(** [unicode_variant_subtag = alphanum{5,8} | digit alphanum{3}] *)
Definition is_variant_subtag (t : string) : bool :=
  all_chars is_lower_alphanum t
  && (length_in 5 8 t
      || (length_in 4 4 t
          && match t with String c _ => is_digit c | EmptyString => false end)).

(** [alphanum{lo,hi}] *)
Definition is_alphanum_subtag (lo hi : nat) (t : string) : bool :=
  all_chars is_lower_alphanum t && length_in lo hi t.

(** [key = alphanum alpha] (of a [-u-] keyword) *)
Definition is_ukey (t : string) : bool :=
  match t with
  | String a (String b EmptyString) => is_lower_alphanum a && is_lower_alpha b
  | _ => false
  end.

(** [tkey = alpha digit] (of a [-t-] field) *)
Definition is_tkey (t : string) : bool :=
  match t with
  | String a (String b EmptyString) => is_lower_alpha a && is_digit b
  | _ => false
  end.

(** Where the scan of the extensions stands. *)
Inductive ext_state : Type :=
| LangDone                 (* [unicode_language_id] read *)
| UStart                   (* after [-u]: an attribute or a key is due *)
| UBody                    (* inside [unicode_locale_extensions] *)
| TStart                   (* after [-t]: a [tlang] or a [tkey] is due *)
| TLang (stage : nat)      (* inside [tlang]: 0 language, 1 script, 2 region, 3 variant *)
| TKey                     (* after a [tkey]: a [tvalue] subtag is due *)
| TValue                   (* inside a [tvalue] *)
| OStart                   (* after another singleton: a subtag is due *)
| OBody                    (* inside [other_extensions] *)
| XStart                   (* after [-x]: a subtag is due *)
| XBody.                   (* inside [pu_extensions] *)

(** The states in which the tag, or the current extension, may end. *)
Definition may_end (st : ext_state) : bool :=
  match st with
  | LangDone | UBody | TLang _ | TValue | OBody | XBody => true
  | UStart | TStart | TKey | OStart | XStart => false
  end.

(** The state an extension singleton leads to. *)
Definition singleton_state (t : string) : ext_state :=
  if t =? "u" then UStart
  else if t =? "t" then TStart
  else if t =? "x" then XStart
  else OStart.

(** [extensions* pu_extensions?]: [seen] are the singletons read so far,
    [tvariants] the variants of the current [tlang]. *)
Fixpoint valid_extensions (st : ext_state) (seen tvariants : list string)
                          (toks : list string) : bool :=
  match toks with
  | [] => may_end st
  | t :: rest =>
      let continue_in st' := valid_extensions st' seen tvariants rest in
      let open_extension :=
        may_end st && is_alphanum_subtag 1 1 t && negb (mem_string t seen)
        && valid_extensions (singleton_state t) (t :: seen) [] rest in
      match st with
      | LangDone => open_extension
      | UStart | UBody =>
          if is_ukey t || is_alphanum_subtag 3 8 t then continue_in UBody
          else open_extension
      | TStart =>
          if is_language_subtag t then continue_in (TLang 0)
          else if is_tkey t then continue_in TKey
          else false
      | TLang stage =>
          if (stage <? 1)%nat && is_script_subtag t then continue_in (TLang 1)
          else if (stage <? 2)%nat && is_region_subtag t then continue_in (TLang 2)
          else if is_variant_subtag t then
            negb (mem_string t tvariants)
            && valid_extensions (TLang 3) seen (t :: tvariants) rest
          else if is_tkey t then continue_in TKey
          else open_extension
      | TKey =>
          if is_alphanum_subtag 3 8 t then continue_in TValue else false
      | TValue =>
          if is_alphanum_subtag 3 8 t then continue_in TValue
          else if is_tkey t then continue_in TKey
          else open_extension
      | OStart | OBody =>
          if is_alphanum_subtag 2 8 t then continue_in OBody
          else open_extension
      | XStart | XBody =>
          if is_alphanum_subtag 1 8 t then continue_in XBody else false
      end
  end.

(** An optional leading subtag of the given class. *)
Definition take_subtag (p : string -> bool) (toks : list string)
  : option string * list string :=
  match toks with
  | t :: rest => if p t then (Some t, rest) else (None, toks)
  | [] => (None, [])
  end.

(** The longest prefix of subtags of the given class. *)
Fixpoint take_subtags (p : string -> bool) (toks : list string)
  : list string * list string :=
  match toks with
  | t :: rest =>
      if p t then let (ts, rest') := take_subtags p rest in (t :: ts, rest')
      else ([], toks)
  | [] => ([], [])
  end.

(** [new Intl.Locale(tag)] *)
Definition Intl_Locale (tag : string) : completion Locale :=
  let lowerLocale := ascii_lowercase tag in
  match split_hyphen lowerLocale with
  | lang :: rest =>
      if is_language_subtag lang then
        let (scriptTok, rest1) := take_subtag is_script_subtag rest in
        let (regionTok, rest2) := take_subtag is_region_subtag rest1 in
        let (variants, rest3) := take_subtags is_variant_subtag rest2 in
        if no_duplicates variants && valid_extensions LangDone [] [] rest3
        then Normal {| language := lang;
                       script := option_map ascii_titlecase scriptTok;
                       region := option_map ascii_uppercase regionTok |}
        else Throw RangeError
      else Throw RangeError
  | [] => Throw RangeError
  end.

(* ================================================================== *)
(** ** [parseLocale] *)

Record ParsedLocale : Type := mkParsed {
  languageTag : string;
  subTag : option string
}.

(** ToBoolean on [string | undefined]: [undefined] and the empty string
    are falsy. *)
Definition truthy (v : option string) : bool :=
  match v with
  | Some s => negb (s =? "")
  | None => false
  end.

(** [a || b] *)
Definition js_or (a b : option string) : option string :=
  if truthy a then a else b.

Definition parseLocale (locale : string) : completion ParsedLocale :=
  match Intl_Locale locale with
  | Throw e => Throw e
  | Normal loc =>
      Normal {| languageTag := language loc;
                subTag := js_or (js_or (region loc) (script loc)) None |}
  end.

(* ================================================================== *)
(** ** Objects used as string-keyed maps *)

(** Own enumerable string-keyed properties, in creation order. *)
Definition JSObject (T : Type) : Type := list (string * T).

Definition own_keys {T : Type} (o : JSObject T) : list string := map fst o.

(** The names of the members of [Object.prototype], which every ordinary
    object inherits.  None of them is enumerable. *)
Definition object_prototype_names : list string :=
  [ "constructor"; "hasOwnProperty"; "isPrototypeOf"; "propertyIsEnumerable";
    "toLocaleString"; "toString"; "valueOf"; "__proto__";
    "__defineGetter__"; "__defineSetter__"; "__lookupGetter__";
    "__lookupSetter__" ].

(** What a property read finds: a value stored in the object itself, or
    the member of [Object.prototype] of the given name. *)
Inductive member (T : Type) : Type :=
| Own (v : T)
| Inherited (name : string).

Arguments Own {T} v.
Arguments Inherited {T} name.

(** [Object.hasOwn(o, k)] *)
Definition has_own {T : Type} (o : JSObject T) (k : string) : bool :=
  existsb (fun p => fst p =? k) o.

(** [k in o]: an own property, or one found along the prototype chain. *)
Definition has_property {T : Type} (o : JSObject T) (k : string) : bool :=
  has_own o k || mem_string k object_prototype_names.

(** [o[k]]: the own property shadows the inherited one. *)
Definition get {T : Type} (o : JSObject T) (k : string) : option (member T) :=
  match find (fun p => fst p =? k) o with
  | Some p => Some (Own (snd p))
  | None =>
      if mem_string k object_prototype_names then Some (Inherited k) else None
  end.

(** Value of a string of decimal digits. *)
Fixpoint decimal_value (acc : N) (s : string) : N :=
  match s with
  | EmptyString => acc
  | String c rest => decimal_value (acc * 10 + (code c - 48))%N rest
  end.

Definition index_value (s : string) : N := decimal_value 0 s.

(** An array index is the canonical decimal form of an integer from 0 to
    2^32 - 2: digits only, no leading zero unless it is "0" itself. *)
Definition is_array_index (s : string) : bool :=
  match s with
  | EmptyString => false
  | String c rest =>
      all_chars is_digit s
      && ((s =? "0") || negb (c =? "0")%char)
      && (index_value s <? 4294967295)%N
  end.

Fixpoint insert_index (k : string) (sorted : list string) : list string :=
  match sorted with
  | [] => [k]
  | k' :: rest =>
      if (index_value k <=? index_value k')%N then k :: sorted
      else k' :: insert_index k rest
  end.

Definition sort_indices (l : list string) : list string :=
  fold_right insert_index [] l.

(** The keys in the order [for (const key in o)] visits them
    (OrdinaryOwnPropertyKeys): array indices first, in ascending numeric
    order, then the other keys in creation order. *)
Definition for_in_keys {T : Type} (o : JSObject T) : list string :=
  sort_indices (filter is_array_index (own_keys o))
  ++ filter (fun k => negb (is_array_index k)) (own_keys o).

(* ================================================================== *)
(** ** Evaluation against a store

    The store holds the object that [values] refers to and, as a record of
    what the call did, the arguments [parseLocale] was called with. *)

Record Store (T : Type) : Type := mkStore {
  object : JSObject T;
  parser_calls : list string
}.

Arguments mkStore {T} object parser_calls.
Arguments object {T} s.
Arguments parser_calls {T} s.

Definition Eval (T A : Type) : Type := Store T -> completion A * Store T.

Definition ret {T A : Type} (a : A) : Eval T A := fun st => (Normal a, st).

Definition bind {T A B : Type} (m : Eval T A) (f : A -> Eval T B) : Eval T B :=
  fun st =>
    match m st with
    | (Normal a, st') => f a st'
    | (Throw e, st') => (Throw e, st')
    end.

Notation "x <- m ;; k" := (bind m (fun x => k))
  (at level 61, m at next level, right associativity).

Definition HasProperty {T : Type} (k : string) : Eval T bool :=
  fun st => (Normal (has_property (object st) k), st).

Definition Get {T : Type} (k : string) : Eval T (option (member T)) :=
  fun st => (Normal (get (object st) k), st).

Definition ForInKeys {T : Type} : Eval T (list string) :=
  fun st => (Normal (for_in_keys (object st)), st).

(** A call [parseLocale(locale)]: its completion, and the call recorded. *)
Definition CallParseLocale {T : Type} (locale : string) : Eval T ParsedLocale :=
  fun st =>
    (parseLocale locale,
     {| object := object st; parser_calls := parser_calls st ++ [locale] |}).

(* ================================================================== *)
(** ** [getLocalizedValue] *)

(** The inner loop [for (const key in values)] over the keys still to be
    visited: [Some r] when [return values[key]] was reached with value [r],
    [None] when the loop ran to its end. *)
Fixpoint scan_keys {T : Type} (lowerLocale : string) (keys : list string)
  : Eval T (option (option (member T))) :=
  match keys with
  | [] => ret None
  | key :: rest =>
      if toLowerCase key =? lowerLocale
      then v <- Get key ;; ret (Some v)
      else scan_keys lowerLocale rest
  end.

(** The outer loop [for (const altLocale of fallback)], followed by
    [return undefined]. *)
Fixpoint scan_fallback {T : Type} (fallback : list string)
  : Eval T (option (member T)) :=
  match fallback with
  | [] => ret None
  | altLocale :: rest =>
      let lowerLocale := toLowerCase altLocale in
      keys <- ForInKeys ;;
      r <- scan_keys lowerLocale keys ;;
      match r with
      | Some v => ret v
      | None => scan_fallback rest
      end
  end.

(** The completion of the call together with the store as the call leaves
    it, from a store that holds [values] and no parser call yet.  A call
    without the third argument passes []. *)
Definition getLocalizedValue {T : Type} (values : JSObject T) (locale : string)
                             (fallbackLocales : list string)
  : completion (option (member T)) * Store T :=
  (inValues <- HasProperty locale ;;
   if inValues then Get locale
   else
     parsed <- CallParseLocale locale ;;
     let fallback :=
       if truthy (subTag parsed)
       then locale :: languageTag parsed :: fallbackLocales
       else locale :: fallbackLocales in
     scan_fallback fallback) {| object := values; parser_calls := [] |}.

(* ================================================================== *)
(** ** [formatFullname] *)

Definition familyNameFirstLocales : list string :=
  [ "ja-JP"; "zh-CN"; "zh-TW"; "ko-KR"; "vi-VN"; "hu-HU"; "mn-MN" ].

(** [l.includes(s)] on an array of strings. *)
Definition includes (l : list string) (s : string) : bool :=
  existsb (fun x => x =? s) l.

Definition formatFullname (givenName familyName locale : string) : string :=
  if includes familyNameFirstLocales locale
  then familyName ++ " " ++ givenName
  else givenName ++ " " ++ familyName.

(* ================================================================== *)
(** ** The resolution order as the specification words it *)

(** The candidate chain: [locale, languageTag, ...fallbackLocales] when the
    parser yields a subtag, [locale, ...fallbackLocales] when it does not. *)
Definition candidate_chain (locale : string) (parsed : ParsedLocale)
                           (fallbackLocales : list string) : list string :=
  match subTag parsed with
  | Some _ => locale :: languageTag parsed :: fallbackLocales
  | None => locale :: fallbackLocales
  end.

(** The value of the first entry, in creation order, whose key equals the
    candidate once both are lower-cased. *)
Fixpoint first_key_match {T : Type} (candidate : string) (entries : JSObject T)
  : option T :=
  match entries with
  | [] => None
  | (key, v) :: rest =>
      if toLowerCase key =? toLowerCase candidate then Some v
      else first_key_match candidate rest
  end.

(** The candidates tried strictly in order; the first one that matches a
    key decides. *)
Fixpoint first_candidate_match {T : Type} (chain : list string)
                               (entries : JSObject T) : option T :=
  match chain with
  | [] => None
  | candidate :: rest =>
      match first_key_match candidate entries with
      | Some v => Some v
      | None => first_candidate_match rest entries
      end
  end.

(** A candidate matches a key when their lower-cased forms are equal. *)
Definition matches (candidate key : string) : Prop :=
  toLowerCase key = toLowerCase candidate.

(** Two characters that differ at most in the case of an ASCII letter. *)
Definition same_letter (a b : ascii) : Prop :=
  a = b
  \/ (is_upper_alpha a = true /\ b = ascii_lower_char a)
  \/ (is_upper_alpha b = true /\ a = ascii_lower_char b).

(** [case_variant s t]: [t] is [s] with the case of some letters changed. *)
Inductive case_variant : string -> string -> Prop :=
| cv_empty : case_variant EmptyString EmptyString
| cv_char a b s t :
    same_letter a b -> case_variant s t ->
    case_variant (String a s) (String b t).

(** The seven family-name-first identifiers, spelled out. *)
Definition family_name_first (locale : string) : Prop :=
  locale = "ja-JP" \/ locale = "zh-CN" \/ locale = "zh-TW" \/ locale = "ko-KR"
  \/ locale = "vi-VN" \/ locale = "hu-HU" \/ locale = "mn-MN".

(* ================================================================== *)
(** ** Sample inputs *)

(** The [greetings] map of the documentation of [getLocalizedValue]. *)
Definition greetings : JSObject string :=
  [ ("en", "Hello"); ("en-US", "Howdy"); ("fr", "Bonjour") ].

(** Two keys that differ only in case, the upper-case one created first. *)
Definition tied : JSObject string :=
  [ ("fr", "Bonjour"); ("EN", "Hello"); ("en", "Hi") ].

(** Keys that [Intl.Locale] rejects (underscore separator), differing only
    in case. *)
Definition underscored : JSObject string :=
  [ ("EN_us", "Howdy"); ("en_US", "Hello") ].

(** A key that differs only in case from the name of a member of
    [Object.prototype]. *)
Definition shadowing : JSObject string :=
  [ ("TOSTRING", "text") ].

(** A key that differs from "en-GB" only in case, created after "en". *)
Definition cased : JSObject string :=
  [ ("en", "Hello"); ("EN-gb", "Good day") ].

(** [s] contains no hyphen: it is a single subtag. *)
Definition no_hyphen (s : string) : bool :=
  all_chars (fun c => negb (c =? "-")%char) s.

(* ================================================================== *)
(** * Properties *)

(** ** Characters *)

Ltac each_char c :=
  destruct c as [[] [] [] [] [] [] [] []]; vm_compute; try reflexivity; try discriminate.

Lemma lower_char_digit_inv (c : ascii) :
  is_digit (lower_char c) = true -> lower_char c = c.
Proof. each_char c. Qed.

Lemma lower_char_of_digit (c : ascii) :
  is_digit c = true -> lower_char c = c.
Proof. each_char c. Qed.

Lemma toLowerCase_digits (s : string) :
  all_chars is_digit s = true -> toLowerCase s = s.
Proof.
  induction s as [|c s IH]; simpl; intro H; [reflexivity|].
  apply andb_true_iff in H as [Hc Hs].
  unfold toLowerCase in *; simpl.
  now rewrite (lower_char_of_digit c Hc), (IH Hs).
Qed.

Lemma toLowerCase_digits_inv (s : string) :
  all_chars is_digit (toLowerCase s) = true -> toLowerCase s = s.
Proof.
  induction s as [|c s IH]; unfold toLowerCase in *; simpl; intro H; [reflexivity|].
  apply andb_true_iff in H as [Hc Hs].
  now rewrite (lower_char_digit_inv c Hc), (IH Hs).
Qed.

Lemma is_array_index_digits (s : string) :
  is_array_index s = true -> all_chars is_digit s = true.
Proof.
  destruct s as [|c s]; [discriminate|].
  unfold is_array_index; intro H.
  apply andb_true_iff in H as [H _].
  now apply andb_true_iff in H as [H _].
Qed.

Lemma toLowerCase_array_index (s : string) :
  is_array_index s = true -> toLowerCase s = s.
Proof. intro H. now apply toLowerCase_digits, is_array_index_digits. Qed.

Lemma toLowerCase_array_index_inv (s : string) :
  is_array_index (toLowerCase s) = true -> toLowerCase s = s.
Proof. intro H. now apply toLowerCase_digits_inv, is_array_index_digits. Qed.

(** ** Lists of keys *)

Lemma mem_string_In (x : string) (l : list string) :
  mem_string x l = true <-> In x l.
Proof.
  unfold mem_string; rewrite existsb_exists; split.
  - intros [y [Hy E]]. apply String.eqb_eq in E. now subst.
  - intro H. exists x. split; [assumption | apply String.eqb_refl].
Qed.

Lemma In_insert_index (k x : string) (l : list string) :
  In x (insert_index k l) <-> x = k \/ In x l.
Proof.
  induction l as [|k' l IH]; simpl.
  - intuition.
  - destruct (index_value k <=? index_value k')%N; simpl; rewrite ?IH; intuition.
Qed.

Lemma In_sort_indices (x : string) (l : list string) :
  In x (sort_indices l) <-> In x l.
Proof.
  induction l as [|k l IH]; simpl; [tauto|].
  rewrite In_insert_index, IH. intuition.
Qed.

Lemma In_for_in_keys {T : Type} (o : JSObject T) (k : string) :
  In k (for_in_keys o) <-> In k (own_keys o).
Proof.
  unfold for_in_keys.
  rewrite in_app_iff, In_sort_indices, !filter_In.
  destruct (is_array_index k); simpl; intuition discriminate.
Qed.

Lemma find_app {A : Type} (P : A -> bool) (l1 l2 : list A) :
  find P (l1 ++ l2) =
  match find P l1 with Some x => Some x | None => find P l2 end.
Proof.
  induction l1 as [|a l1 IH]; simpl; [reflexivity|].
  now destruct (P a).
Qed.

Lemma find_all_false {A : Type} (P : A -> bool) (l : list A) :
  (forall x, In x l -> P x = false) -> find P l = None.
Proof.
  induction l as [|a l IH]; simpl; intro H; [reflexivity|].
  rewrite (H a (or_introl eq_refl)). apply IH. intros x Hx. apply H. now right.
Qed.

Lemma find_filter_implied {A : Type} (P Q : A -> bool) (l : list A) :
  (forall x, P x = true -> Q x = true) -> find P (filter Q l) = find P l.
Proof.
  intro H. induction l as [|a l IH]; simpl; [reflexivity|].
  destruct (Q a) eqn:Eq; simpl.
  - now rewrite IH.
  - destruct (P a) eqn:Ep; [|assumption].
    apply H in Ep. congruence.
Qed.

Lemma find_single (P : string -> bool) (x : string) (l : list string) :
  (forall k, P k = true -> k = x) -> P x = true ->
  find P l = if mem_string x l then Some x else None.
Proof.
  intros Huniq Hx. induction l as [|a l IH]; simpl; [reflexivity|].
  destruct (P a) eqn:Ea.
  - apply Huniq in Ea. subst a. now rewrite String.eqb_refl.
  - destruct (x =? a) eqn:E.
    + apply String.eqb_eq in E. congruence.
    + exact IH.
Qed.

(** The enumeration order of [for ... in] and the creation order find the
    same first key for a case-insensitive comparison: an array index is the
    lower-cased form of no other key. *)
Lemma find_for_in_keys {T : Type} (o : JSObject T) (lowerLocale : string) :
  find (fun key => toLowerCase key =? lowerLocale) (for_in_keys o)
  = find (fun key => toLowerCase key =? lowerLocale) (own_keys o).
Proof.
  set (P := fun key => toLowerCase key =? lowerLocale).
  destruct (is_array_index lowerLocale) eqn:Eidx.
  - assert (Huniq : forall k, P k = true -> k = lowerLocale).
    { intros k Hk. apply String.eqb_eq in Hk.
      rewrite <- Hk in Eidx. apply toLowerCase_array_index_inv in Eidx. congruence. }
    assert (Hx : P lowerLocale = true).
    { unfold P. rewrite (toLowerCase_array_index _ Eidx). apply String.eqb_refl. }
    rewrite !(find_single P lowerLocale _ Huniq Hx).
    destruct (mem_string lowerLocale (for_in_keys o)) eqn:E1;
      destruct (mem_string lowerLocale (own_keys o)) eqn:E2; try reflexivity.
    + apply mem_string_In, In_for_in_keys, mem_string_In in E1. congruence.
    + apply mem_string_In, In_for_in_keys, mem_string_In in E2. congruence.
  - assert (Hnot : forall k, P k = true -> negb (is_array_index k) = true).
    { intros k Hk. apply String.eqb_eq in Hk.
      destruct (is_array_index k) eqn:Ek; [|reflexivity].
      rewrite (toLowerCase_array_index _ Ek) in Hk. congruence. }
    unfold for_in_keys. rewrite find_app.
    rewrite find_all_false.
    + apply (find_filter_implied P _ _ Hnot).
    + intros k Hk. apply In_sort_indices, filter_In in Hk as [_ Hk].
      destruct (P k) eqn:Ek; [|reflexivity].
      apply Hnot in Ek. rewrite Hk in Ek. discriminate.
Qed.

(** ** The two loops of [getLocalizedValue] *)

Lemma get_first_key_match {T : Type} (o : JSObject T) (candidate : string) :
  match find (fun key => toLowerCase key =? toLowerCase candidate) (own_keys o) with
  | Some key =>
      exists v, get o key = Some (Own v) /\ first_key_match candidate o = Some v
  | None => first_key_match candidate o = None
  end.
Proof.
  induction o as [|[k v] o IH]; simpl; [reflexivity|].
  destruct (toLowerCase k =? toLowerCase candidate) eqn:Ek.
  - exists v. unfold get; simpl. now rewrite String.eqb_refl.
  - destruct (find _ (own_keys o)) as [key|] eqn:Ef; [|assumption].
    destruct IH as [w [Hget Hfirst]]. exists w. split; [|assumption].
    unfold get in *; simpl.
    destruct (k =? key) eqn:E; [|assumption].
    apply String.eqb_eq in E. subst key.
    apply find_some in Ef as [_ Ef]. congruence.
Qed.

Lemma scan_keys_find {T : Type} (lowerLocale : string) (keys : list string)
                     (st : Store T) :
  scan_keys lowerLocale keys st
  = (Normal (option_map (get (object st))
               (find (fun key => toLowerCase key =? lowerLocale) keys)), st).
Proof.
  induction keys as [|key keys IH]; simpl; [reflexivity|].
  destruct (toLowerCase key =? lowerLocale); [reflexivity | exact IH].
Qed.

Lemma scan_fallback_first_match {T : Type} (fallback : list string)
                                (st : Store T) :
  scan_fallback fallback st
  = (Normal (option_map Own (first_candidate_match fallback (object st))), st).
Proof.
  induction fallback as [|altLocale rest IH]; simpl; [reflexivity|].
  unfold bind, ForInKeys.
  rewrite scan_keys_find, find_for_in_keys.
  pose proof (get_first_key_match (object st) altLocale) as H.
  destruct (find _ (own_keys (object st))) as [key|]; simpl.
  - destruct H as [v [Hget Hfirst]]. now rewrite Hget, Hfirst.
  - now rewrite H.
Qed.

Lemma getLocalizedValue_unfold {T : Type} (values : JSObject T) (locale : string)
                               (fallbackLocales : list string) :
  getLocalizedValue values locale fallbackLocales =
  if has_property values locale
  then (Normal (get values locale), {| object := values; parser_calls := [] |})
  else match parseLocale locale with
       | Throw e => (Throw e, {| object := values; parser_calls := [locale] |})
       | Normal parsed =>
           (Normal (option_map Own
                      (first_candidate_match
                         (if truthy (subTag parsed)
                          then locale :: languageTag parsed :: fallbackLocales
                          else locale :: fallbackLocales) values)),
            {| object := values; parser_calls := [locale] |})
       end.
Proof.
  unfold getLocalizedValue, bind, HasProperty, Get, CallParseLocale. simpl.
  destruct (has_property values locale); [reflexivity|].
  destruct (parseLocale locale) as [parsed|e]; [|reflexivity].
  apply scan_fallback_first_match.
Qed.

Lemma has_own_In {T : Type} (o : JSObject T) (k : string) :
  has_own o k = true <-> In k (own_keys o).
Proof.
  unfold has_own, own_keys. induction o as [|[k' v'] o IH]; simpl.
  - split; [discriminate | tauto].
  - rewrite orb_true_iff, IH, String.eqb_eq. tauto.
Qed.

Lemma has_own_get {T : Type} (o : JSObject T) (k : string) :
  has_own o k = true <-> exists v, get o k = Some (Own v).
Proof.
  unfold has_own, get. induction o as [|[k' v'] o IH]; cbn [existsb find fst snd].
  - split; [discriminate|].
    destruct (mem_string k object_prototype_names); intros [v H]; discriminate.
  - destruct (k' =? k); cbn [orb]; [|exact IH].
    split; [intros _; now exists v' | intros _; reflexivity].
Qed.

Lemma has_property_get {T : Type} (o : JSObject T) (k : string) :
  has_property o k = true <-> exists v, get o k = Some v.
Proof.
  unfold has_property. split.
  - intro H. apply orb_true_iff in H as [H | H].
    + apply has_own_get in H as [v Hv]. now exists (Own v).
    + unfold get. destruct (find _ o) as [p|]; [now eexists|].
      rewrite H. now eexists.
  - intros [v Hv]. unfold get in Hv.
    destruct (find (fun p => fst p =? k) o) as [p|] eqn:Ef.
    + apply orb_true_iff. left. unfold has_own. apply existsb_exists.
      exists p. apply find_some in Ef. exact Ef.
    + destruct (mem_string k object_prototype_names); [|discriminate].
      apply orb_true_r.
Qed.

Lemma has_property_In {T : Type} (o : JSObject T) (k : string) :
  In k (own_keys o) -> has_property o k = true.
Proof.
  intro H. unfold has_property. apply has_own_In in H. now rewrite H.
Qed.

Lemma first_key_match_none {T : Type} (o : JSObject T) (candidate : string) :
  (forall key, In key (own_keys o) -> ~ matches candidate key) ->
  first_key_match candidate o = None.
Proof.
  induction o as [|[k v] o IH]; simpl; intro H; [reflexivity|].
  destruct (toLowerCase k =? toLowerCase candidate) eqn:E.
  - apply String.eqb_eq in E. exfalso. apply (H k); [now left | exact E].
  - apply IH. intros key Hkey. apply H. now right.
Qed.

Lemma first_key_match_some {T : Type} (o : JSObject T) (candidate : string) (v : T) :
  first_key_match candidate o = Some v ->
  exists k, In k (own_keys o) /\ matches candidate k /\ get o k = Some (Own v).
Proof.
  intro H. pose proof (get_first_key_match o candidate) as G.
  destruct (find _ (own_keys o)) as [key|] eqn:Ef; [|congruence].
  destruct G as [w [Hget Hfirst]]. exists key.
  apply find_some in Ef as [Hin Hm]. apply String.eqb_eq in Hm.
  repeat split; [assumption | assumption | congruence].
Qed.

Lemma first_candidate_match_some {T : Type} (chain : list string)
                                 (o : JSObject T) (v : T) :
  first_candidate_match chain o = Some v ->
  exists candidate k, In candidate chain /\ In k (own_keys o)
                      /\ matches candidate k /\ get o k = Some (Own v).
Proof.
  induction chain as [|c chain IH]; simpl; [discriminate|].
  destruct (first_key_match c o) as [w|] eqn:E.
  - intro H. injection H as ->.
    apply first_key_match_some in E as [k [Hin [Hm Hget]]].
    exists c, k. auto.
  - intro H. destruct (IH H) as [c' [k [Hc [Hin [Hm Hget]]]]].
    exists c', k. auto.
Qed.

Lemma first_candidate_match_none {T : Type} (chain : list string) (o : JSObject T) :
  (forall candidate key, In candidate chain -> In key (own_keys o) ->
                         ~ matches candidate key) ->
  first_candidate_match chain o = None.
Proof.
  induction chain as [|c chain IH]; simpl; intro H; [reflexivity|].
  rewrite first_key_match_none.
  - apply IH. intros c' key Hc. apply H. now right.
  - intros key. apply H. now left.
Qed.

(** ** [Intl.Locale] and [parseLocale] *)

Lemma take_subtag_some (p : string -> bool) (toks rest : list string) (t : string) :
  take_subtag p toks = (Some t, rest) -> p t = true.
Proof.
  destruct toks as [|t' toks]; simpl; [discriminate|].
  destruct (p t') eqn:E; [|discriminate].
  intro H. now injection H as -> _.
Qed.

Lemma Intl_Locale_fields (tag : string) (loc : Locale) :
  Intl_Locale tag = Normal loc ->
  is_language_subtag (language loc) = true
  /\ (forall s, script loc = Some s ->
        exists t, is_script_subtag t = true /\ s = ascii_titlecase t)
  /\ (forall r, region loc = Some r ->
        exists t, is_region_subtag t = true /\ r = ascii_uppercase t).
Proof.
  unfold Intl_Locale.
  destruct (split_hyphen (ascii_lowercase tag)) as [|lang rest]; [discriminate|].
  destruct (is_language_subtag lang) eqn:Elang; [|discriminate].
  destruct (take_subtag is_script_subtag rest) as [scriptTok rest1] eqn:Es.
  destruct (take_subtag is_region_subtag rest1) as [regionTok rest2] eqn:Er.
  destruct (take_subtags is_variant_subtag rest2) as [variants rest3].
  destruct (no_duplicates variants && valid_extensions LangDone [] [] rest3);
    [|discriminate].
  intro H. injection H as <-. simpl. split; [assumption|]. split.
  - intros s Hs. destruct scriptTok as [t|]; [|discriminate].
    injection Hs as <-. exists t. split; [|reflexivity].
    exact (take_subtag_some _ _ _ _ Es).
  - intros r Hr. destruct regionTok as [t|]; [|discriminate].
    injection Hr as <-. exists t. split; [|reflexivity].
    exact (take_subtag_some _ _ _ _ Er).
Qed.

Lemma script_truthy (t : string) :
  is_script_subtag t = true -> truthy (Some (ascii_titlecase t)) = true.
Proof. destruct t; [discriminate | reflexivity]. Qed.

Lemma region_truthy (t : string) :
  is_region_subtag t = true -> truthy (Some (ascii_uppercase t)) = true.
Proof. destruct t; [discriminate | reflexivity]. Qed.

(** What [loc.region || loc.script || undefined] selects. *)
Lemma parseLocale_of_Locale (tag : string) (loc : Locale) :
  Intl_Locale tag = Normal loc ->
  parseLocale tag =
  Normal {| languageTag := language loc;
            subTag := match region loc with
                      | Some r => Some r
                      | None => script loc
                      end |}.
Proof.
  intro H. unfold parseLocale. rewrite H.
  destruct (Intl_Locale_fields tag loc H) as [_ [Hs Hr]].
  do 2 f_equal. unfold js_or.
  destruct (region loc) as [r|].
  - destruct (Hr r eq_refl) as [t [Ht ->]].
    now rewrite (region_truthy t Ht), (region_truthy t Ht).
  - change (truthy None) with false. cbv iota.
    destruct (script loc) as [s|]; [|reflexivity].
    destruct (Hs s eq_refl) as [t [Ht ->]].
    now rewrite (script_truthy t Ht).
Qed.

Lemma parseLocale_Normal_inv (tag : string) (parsed : ParsedLocale) :
  parseLocale tag = Normal parsed ->
  exists loc, Intl_Locale tag = Normal loc.
Proof.
  unfold parseLocale. destruct (Intl_Locale tag) as [loc|e]; [|discriminate].
  intros _. now exists loc.
Qed.

(** A subtag that [parseLocale] returns is never the empty string, so the
    test [subTag ? ... : ...] asks whether there is one. *)
Lemma parseLocale_subTag_truthy (tag : string) (parsed : ParsedLocale) :
  parseLocale tag = Normal parsed ->
  truthy (subTag parsed) = match subTag parsed with Some _ => true | None => false end.
Proof.
  intro H. destruct (parseLocale_Normal_inv tag parsed H) as [loc Hloc].
  rewrite (parseLocale_of_Locale tag loc Hloc) in H. injection H as <-. simpl.
  destruct (Intl_Locale_fields tag loc Hloc) as [_ [Hs Hr]].
  destruct (region loc) as [r|].
  - destruct (Hr r eq_refl) as [t [Ht ->]]. exact (region_truthy t Ht).
  - destruct (script loc) as [s|]; [|reflexivity].
    destruct (Hs s eq_refl) as [t [Ht ->]]. exact (script_truthy t Ht).
Qed.

Lemma ascii_lower_char_idem (c : ascii) :
  ascii_lower_char (ascii_lower_char c) = ascii_lower_char c.
Proof. each_char c. Qed.

Lemma same_letter_lower (a b : ascii) :
  same_letter a b -> ascii_lower_char a = ascii_lower_char b.
Proof.
  intros [-> | [[_ ->] | [_ ->]]];
    [reflexivity | symmetry | ]; apply ascii_lower_char_idem.
Qed.

Lemma case_variant_lowercase (s t : string) :
  case_variant s t -> ascii_lowercase s = ascii_lowercase t.
Proof.
  induction 1 as [|a b s t Hab _ IH]; [reflexivity|].
  unfold ascii_lowercase in *; simpl.
  now rewrite (same_letter_lower a b Hab), IH.
Qed.

(** Upper-casing and lower-casing a string give case variants of it. *)
Lemma same_letter_upper (c : ascii) : same_letter c (ascii_upper_char c).
Proof.
  destruct c as [[] [] [] [] [] [] [] []];
    first [ left; reflexivity | right; right; split; reflexivity ].
Qed.

Lemma same_letter_lower_char (c : ascii) : same_letter c (ascii_lower_char c).
Proof.
  destruct c as [[] [] [] [] [] [] [] []];
    first [ left; reflexivity | right; left; split; reflexivity ].
Qed.

Lemma case_variant_uppercase (s : string) : case_variant s (ascii_uppercase s).
Proof.
  induction s as [|c s IH]; [apply cv_empty|].
  apply cv_char; [apply same_letter_upper | exact IH].
Qed.

Lemma case_variant_ascii_lowercase (s : string) :
  case_variant s (ascii_lowercase s).
Proof.
  induction s as [|c s IH]; [apply cv_empty|].
  apply cv_char; [apply same_letter_lower_char | exact IH].
Qed.

Lemma upper_of_lower_alpha (c : ascii) :
  is_lower_alpha c = true ->
  is_upper_alpha (ascii_upper_char c) || is_digit (ascii_upper_char c) = true.
Proof. each_char c. Qed.

Lemma upper_of_digit (c : ascii) :
  is_digit c = true ->
  is_upper_alpha (ascii_upper_char c) || is_digit (ascii_upper_char c) = true.
Proof. each_char c. Qed.

Lemma all_chars_uppercase (p : ascii -> bool) (t : string) :
  (forall c, p c = true ->
     is_upper_alpha (ascii_upper_char c) || is_digit (ascii_upper_char c) = true) ->
  all_chars p t = true ->
  all_chars (fun c => is_upper_alpha c || is_digit c) (ascii_uppercase t) = true.
Proof.
  intro Hp. induction t as [|c t IH]; simpl; [reflexivity|].
  intro H. apply andb_true_iff in H as [Hc Ht].
  unfold ascii_uppercase in *. now rewrite (Hp c Hc), (IH Ht).
Qed.

Lemma region_upper_case (t : string) :
  is_region_subtag t = true ->
  all_chars (fun c => is_upper_alpha c || is_digit c) (ascii_uppercase t) = true.
Proof.
  unfold is_region_subtag. intro H.
  apply orb_true_iff in H as [H | H]; apply andb_true_iff in H as [H _].
  - exact (all_chars_uppercase _ t upper_of_lower_alpha H).
  - exact (all_chars_uppercase _ t upper_of_digit H).
Qed.

(** The chain that the code builds is the chain of the specification. *)
Lemma fallback_is_candidate_chain (locale : string) (parsed : ParsedLocale)
                                  (fallbackLocales : list string) :
  parseLocale locale = Normal parsed ->
  (if truthy (subTag parsed)
   then locale :: languageTag parsed :: fallbackLocales
   else locale :: fallbackLocales)
  = candidate_chain locale parsed fallbackLocales.
Proof.
  intro Hparse. unfold candidate_chain.
  rewrite (parseLocale_subTag_truthy locale parsed Hparse).
  now destruct (subTag parsed).
Qed.

(* ================================================================== *)
(** ** The examples of the documentation and of the specification *)

Example for_in_keys_order :
  for_in_keys [("b", 1); ("10", 2); ("2", 3); ("a", 4); ("01", 5); ("0", 6)]
  = ["0"; "2"; "10"; "b"; "a"; "01"].
Proof. reflexivity. Qed.

Example greetings_en_GB :
  fst (getLocalizedValue greetings "en-GB" []) = Normal (Some (Own "Hello")).
Proof. reflexivity. Qed.

Example greetings_en_US :
  fst (getLocalizedValue greetings "en-US" []) = Normal (Some (Own "Howdy")).
Proof. reflexivity. Qed.

Example greetings_es_en :
  fst (getLocalizedValue greetings "es" ["en"]) = Normal (Some (Own "Hello")).
Proof. reflexivity. Qed.

Example upper_case_key :
  fst (getLocalizedValue [("EN", "Hello")] "en" []) = Normal (Some (Own "Hello")).
Proof. reflexivity. Qed.

Example fallbacks_in_order :
  fst (getLocalizedValue [("fr", "Bonjour")] "es" ["en"; "fr"])
  = Normal (Some (Own "Bonjour")).
Proof. reflexivity. Qed.

Example unparseable_locale :
  fst (getLocalizedValue greetings "en_GB" ["en"]) = Throw RangeError.
Proof. reflexivity. Qed.

Example formatFullname_en_US_ja_JP :
  formatFullname "John" "Doe" "en-US" = "John Doe"
  /\ formatFullname "John" "Doe" "ja-JP" = "Doe John".
Proof. split; reflexivity. Qed.

Example parseLocale_more_tags :
  parseLocale "en-Latn" = Normal {| languageTag := "en"; subTag := Some "Latn" |}
  /\ parseLocale "es-419" = Normal {| languageTag := "es"; subTag := Some "419" |}
  /\ parseLocale "de-1996" = Normal {| languageTag := "de"; subTag := None |}
  /\ parseLocale "en-u-ca-gregory" = Normal {| languageTag := "en"; subTag := None |}
  /\ parseLocale "de-1996-1996" = Throw RangeError
  /\ parseLocale "en-US-Latn" = Throw RangeError.
Proof. repeat split; reflexivity. Qed.

(* ================================================================== *)
(** * Properties stated by the specification *)

(** C1.  The candidate chain is not reached for a locale that names a
    member of [Object.prototype].  "toString" is not a key of [shadowing]
    and the parser accepts it; the chain ["toString"] matches the key
    "TOSTRING" and would yield its value, but [locale in values] is true
    through the prototype, so the call returns the inherited member and
    never scans. *)
Theorem getLocalizedValue_inherited_skips_chain :
  has_own shadowing "toString" = false
  /\ parseLocale "toString" = Normal {| languageTag := "tostring"; subTag := None |}
  /\ first_candidate_match
       (candidate_chain "toString" {| languageTag := "tostring"; subTag := None |} [])
       shadowing = Some "text"
  /\ getLocalizedValue shadowing "toString" []
     = (Normal (Some (Inherited "toString")),
        {| object := shadowing; parser_calls := [] |}).
Proof. repeat split; reflexivity. Qed.

(** C2.  When [k] is a key of [values], [getLocalizedValue values k] returns
    [values[k]] at once, for every fallback list: [parseLocale] is not
    called, whatever the other keys are and whether or not [k] is a tag
    the parser accepts. *)
Theorem getLocalizedValue_exact_key {T : Type} (values : JSObject T)
    (k : string) (fallbackLocales : list string) :
  has_property values k = true ->
  getLocalizedValue values k fallbackLocales
  = (Normal (get values k), {| object := values; parser_calls := [] |})
  /\ exists v, get values k = Some v.
Proof.
  intro Hkey. rewrite getLocalizedValue_unfold, Hkey.
  split; [reflexivity | now apply has_property_get].
Qed.

Lemma getLocalizedValue_exact_key_witness :
  has_property underscored "en_US" = true
  /\ parseLocale "en_US" = Throw RangeError
  /\ getLocalizedValue underscored "en_US" ["EN_us"]
     = (Normal (Some (Own "Hello")), {| object := underscored; parser_calls := [] |}).
Proof.
  split; [reflexivity|]. split; [reflexivity|].
  exact (proj1 (getLocalizedValue_exact_key underscored "en_US" ["EN_us"] eq_refl)).
Defined.

(** C3.  On "zh-Hant-HK" [parseLocale] returns the region "HK" as the
    subtag, not the second segment "Hant": [loc.region] is asked before
    [loc.script]. *)
Theorem parseLocale_zh_Hant_HK :
  parseLocale "zh-Hant-HK" = Normal {| languageTag := "zh"; subTag := Some "HK" |}
  /\ Intl_Locale "zh-Hant-HK"
     = Normal {| language := "zh"; script := Some "Hant"; region := Some "HK" |}.
Proof. split; reflexivity. Qed.

(** C4.  "constructor" is not a key of the empty mapping and the parser
    throws on it, yet the call does not throw: [locale in values] is true
    through the prototype, the parser is never called, and the inherited
    member is returned. *)
Theorem getLocalizedValue_inherited_no_throw :
  has_own (@nil (string * string)) "constructor" = false
  /\ parseLocale "constructor" = Throw RangeError
  /\ getLocalizedValue (@nil (string * string)) "constructor" []
     = (Normal (Some (Inherited "constructor")),
        {| object := []; parser_calls := [] |}).
Proof. repeat split; reflexivity. Qed.

(** C5, counterexample.  [parseLocale] throws on malformed tokens. *)
Lemma parseLocale_malformed_throws :
  parseLocale "en_US" = Throw RangeError
  /\ parseLocale "" = Throw RangeError
  /\ parseLocale "e" = Throw RangeError.
Proof. repeat split; reflexivity. Qed.

(** C5, amended.  [parseLocale] validates nothing itself: it throws exactly
    when [Intl.Locale] rejects the token, with the same error, and returns
    on every token [Intl.Locale] accepts; the subtag it returns is absent
    exactly when the accepted tag has neither a region nor a script. *)
Theorem parseLocale_no_own_validation (tag : string) :
  (forall e, parseLocale tag = Throw e <-> Intl_Locale tag = Throw e)
  /\ (forall loc, Intl_Locale tag = Normal loc ->
        exists parsed,
          parseLocale tag = Normal parsed
          /\ languageTag parsed = language loc
          /\ (subTag parsed = None <-> region loc = None /\ script loc = None)).
Proof.
  split.
  - intro e. unfold parseLocale. destruct (Intl_Locale tag) as [loc|e'].
    + split; discriminate.
    + split; intro H; now injection H as ->.
  - intros loc Hloc. rewrite (parseLocale_of_Locale tag loc Hloc).
    eexists. split; [reflexivity|]. split; [reflexivity|]. simpl.
    destruct (region loc); [split; [discriminate | intros [H _]; discriminate]|].
    tauto.
Qed.

(** C6.  On the empty mapping the parseable locale "valueOf" does not
    give [undefined]: no candidate matches a key, there being none, but
    the call returns the member inherited from [Object.prototype]. *)
Theorem getLocalizedValue_empty_mapping_inherited :
  parseLocale "valueOf" = Normal {| languageTag := "valueof"; subTag := None |}
  /\ own_keys (@nil (string * string)) = []
  /\ fst (getLocalizedValue (@nil (string * string)) "valueOf" [])
     = Normal (Some (Inherited "valueOf"))
  /\ fst (getLocalizedValue (@nil (string * string)) "valueOf" []) <> Normal None.
Proof. repeat split; try reflexivity. discriminate. Qed.

(** C7.  [formatFullname] puts the family name first when [locale] is one
    of the seven identifiers, character for character, and the given name
    first for every other locale; where the two orders differ as strings,
    the family-first result is returned only for those seven.  "ja" is not
    one of them.  The function has a result on every input. *)
Theorem formatFullname_order (givenName familyName locale : string) :
  (family_name_first locale ->
     formatFullname givenName familyName locale = (familyName ++ " " ++ givenName)%string)
  /\ (~ family_name_first locale ->
     formatFullname givenName familyName locale = (givenName ++ " " ++ familyName)%string)
  /\ ((familyName ++ " " ++ givenName)%string <> (givenName ++ " " ++ familyName)%string ->
      (formatFullname givenName familyName locale = (familyName ++ " " ++ givenName)%string
       <-> family_name_first locale))
  /\ formatFullname "John" "Doe" "ja" = "John Doe".
Proof.
  assert (Hset : includes familyNameFirstLocales locale = true
                 <-> family_name_first locale).
  { unfold includes, familyNameFirstLocales, family_name_first.
    cbn [existsb]. rewrite !orb_true_iff, !String.eqb_eq.
    intuition (try discriminate; auto). }
  unfold formatFullname.
  destruct (includes familyNameFirstLocales locale).
  - assert (Hin : family_name_first locale) by now apply Hset.
    split; [intros _; reflexivity|].
    split; [intro Hout; contradiction|].
    split; [|reflexivity].
    intros _. split; [intros _; exact Hin | intros _; reflexivity].
  - assert (Hout : ~ family_name_first locale).
    { intro Hin. apply Hset in Hin. discriminate. }
    split; [intro Hin; contradiction|].
    split; [intros _; reflexivity|].
    split; [|reflexivity].
    intro Hdiffer. split; [intro E | intro Hin; contradiction].
    symmetry in E. contradiction.
Qed.

(** C8.  [parseLocale("en-US")] is [{ languageTag: "en", subTag: "US" }]
    and [parseLocale("en")] is [{ languageTag: "en", subTag: undefined }]. *)
Theorem parseLocale_en_US_en :
  parseLocale "en-US" = Normal {| languageTag := "en"; subTag := Some "US" |}
  /\ parseLocale "en" = Normal {| languageTag := "en"; subTag := None |}.
Proof. split; reflexivity. Qed.

(** C9.  [parseLocale] does not see the case of its input: two strings
    that differ only in the case of letters have the same outcome.  The
    language tag it returns consists of lower-case letters, and when the
    locale has a region, that region is the subtag and consists of
    upper-case letters or digits. *)
Theorem parseLocale_canonical_case (s t : string) :
  case_variant s t ->
  parseLocale t = parseLocale s
  /\ (forall parsed, parseLocale s = Normal parsed ->
        all_chars is_lower_alpha (languageTag parsed) = true
        /\ (forall loc r, Intl_Locale s = Normal loc -> region loc = Some r ->
              subTag parsed = Some r
              /\ all_chars (fun c => is_upper_alpha c || is_digit c) r = true)).
Proof.
  intro Hcase. split.
  - unfold parseLocale, Intl_Locale.
    now rewrite (case_variant_lowercase s t Hcase).
  - intros parsed Hparse.
    destruct (parseLocale_Normal_inv s parsed Hparse) as [loc Hloc].
    rewrite (parseLocale_of_Locale s loc Hloc) in Hparse. injection Hparse as <-.
    destruct (Intl_Locale_fields s loc Hloc) as [Hlang [_ Hregion]].
    simpl. split.
    + unfold is_language_subtag in Hlang. now apply andb_true_iff in Hlang as [H _].
    + intros loc' r Hloc' Hr.
      assert (loc' = loc) by congruence. subst loc'.
      rewrite Hr. split; [reflexivity|].
      destruct (Hregion r Hr) as [tok [Htok ->]].
      exact (region_upper_case tok Htok).
Qed.

Ltac case_variant_by_chars :=
  repeat first
    [ apply cv_empty
    | apply cv_char;
      [ first [ left; reflexivity
              | right; left; split; reflexivity
              | right; right; split; reflexivity ] | ] ].

Lemma parseLocale_canonical_case_witness :
  case_variant "en-US" "EN-us"
  /\ parseLocale "EN-us" = Normal {| languageTag := "en"; subTag := Some "US" |}
  /\ parseLocale "EN-us" = parseLocale "en-US".
Proof.
  assert (Hcase : case_variant "en-US" "EN-us") by case_variant_by_chars.
  split; [exact Hcase|]. split; [reflexivity|].
  exact (proj1 (parseLocale_canonical_case "en-US" "EN-us" Hcase)).
Defined.

(** C10.  On [greetings] the locale "hasOwnProperty" yields a value that
    the mapping holds under none of its keys: the member inherited from
    [Object.prototype].  The mapping itself is left as it was. *)
Theorem getLocalizedValue_returns_inherited_member :
  getLocalizedValue greetings "hasOwnProperty" ["en"]
  = (Normal (Some (Inherited "hasOwnProperty")),
     {| object := greetings; parser_calls := [] |})
  /\ ~ (exists k, In k (own_keys greetings)
                  /\ get greetings k = Some (Inherited "hasOwnProperty")).
Proof.
  split; [reflexivity|].
  intros [k [[<- | [<- | [<- | []]]] H]]; discriminate.
Qed.

(* ================================================================== *)
(** * Further properties of the code *)

(** ** Matching along a chain *)

Lemma first_key_match_none_inv {T : Type} (o : JSObject T) (candidate : string) :
  first_key_match candidate o = None ->
  forall key, In key (own_keys o) -> ~ matches candidate key.
Proof.
  induction o as [|[k v] o IH]; simpl; [tauto|].
  destruct (toLowerCase k =? toLowerCase candidate) eqn:E; [discriminate|].
  intros H key [<- | Hin].
  - unfold matches. intro Hm. rewrite Hm, String.eqb_refl in E. discriminate.
  - now apply IH.
Qed.

Lemma first_candidate_match_none_inv {T : Type} (chain : list string)
                                     (o : JSObject T) :
  first_candidate_match chain o = None ->
  forall candidate key, In candidate chain -> In key (own_keys o) ->
                        ~ matches candidate key.
Proof.
  induction chain as [|c chain IH]; simpl; [tauto|].
  destruct (first_key_match c o) eqn:E; [discriminate|].
  intros H candidate key [<- | Hin].
  - now apply first_key_match_none_inv.
  - now apply IH.
Qed.

Lemma first_key_match_found {T : Type} (o : JSObject T) (candidate k : string) :
  In k (own_keys o) -> matches candidate k ->
  exists x, first_key_match candidate o = Some x.
Proof.
  intros Hin Hm. destruct (first_key_match candidate o) as [x|] eqn:E.
  - now exists x.
  - exfalso. exact (first_key_match_none_inv o candidate E k Hin Hm).
Qed.

Lemma first_candidate_match_app {T : Type} (chain more : list string)
                                (o : JSObject T) :
  first_candidate_match (chain ++ more) o
  = match first_candidate_match chain o with
    | Some x => Some x
    | None => first_candidate_match more o
    end.
Proof.
  induction chain as [|c chain IH]; simpl; [reflexivity|].
  now destruct (first_key_match c o).
Qed.

Lemma first_key_match_lower {T : Type} (o : JSObject T) (c c' : string) :
  toLowerCase c = toLowerCase c' -> first_key_match c o = first_key_match c' o.
Proof.
  intro H. induction o as [|[k v] o IH]; simpl; [reflexivity|].
  now rewrite H, IH.
Qed.

Lemma first_candidate_match_lower {T : Type} (chain chain' : list string)
                                  (o : JSObject T) :
  map toLowerCase chain = map toLowerCase chain' ->
  first_candidate_match chain o = first_candidate_match chain' o.
Proof.
  revert chain'. induction chain as [|c chain IH]; intros [|c' chain'] H;
    try discriminate; [reflexivity|].
  simpl in H. injection H as Hc Hrest. simpl.
  now rewrite (first_key_match_lower o c c' Hc), (IH chain' Hrest).
Qed.

Lemma lower_char_ascii_lower (c : ascii) :
  lower_char (ascii_lower_char c) = lower_char c.
Proof. each_char c. Qed.

Lemma case_variant_toLowerCase (s t : string) :
  case_variant s t -> toLowerCase s = toLowerCase t.
Proof.
  induction 1 as [|a b s t Hab _ IH]; [reflexivity|].
  unfold toLowerCase in *; simpl. rewrite IH. f_equal.
  destruct Hab as [-> | [[_ ->] | [_ ->]]];
    [reflexivity | symmetry | ]; apply lower_char_ascii_lower.
Qed.

Lemma case_variant_parseLocale (s t : string) :
  case_variant s t -> parseLocale t = parseLocale s.
Proof.
  intro H. unfold parseLocale, Intl_Locale.
  now rewrite (case_variant_lowercase s t H).
Qed.

(** ** [getLocalizedValue] *)

(** X1.  [getLocalizedValue] calls [parseLocale] at most once, and only on
    [locale]: not at all when [locale in values] holds, be it through an
    own key or an inherited member, and never on a fallback locale or on a
    key.  Whether the call throws therefore does not depend on the
    fallback list. *)
Theorem getLocalizedValue_parses_locale_only {T : Type} (values : JSObject T)
    (locale : string) (fallbackLocales : list string) :
  parser_calls (snd (getLocalizedValue values locale fallbackLocales))
  = (if has_property values locale then [] else [locale])
  /\ (forall fallbackLocales' e,
        fst (getLocalizedValue values locale fallbackLocales) = Throw e
        <-> fst (getLocalizedValue values locale fallbackLocales') = Throw e).
Proof.
  split.
  - rewrite getLocalizedValue_unfold.
    destruct (has_property values locale); [reflexivity|].
    now destruct (parseLocale locale).
  - intros fallbackLocales' e. rewrite !getLocalizedValue_unfold.
    destruct (has_property values locale); [tauto|].
    destruct (parseLocale locale); simpl; [|tauto].
    split; discriminate.
Qed.

(** X3.  When [locale in values] is false, a value that the call returns
    is one the mapping holds under one of its own keys: it is never an
    inherited member and never a value that is not in the mapping. *)
Theorem getLocalizedValue_value_of_own_key {T : Type} (values : JSObject T)
    (locale : string) (fallbackLocales : list string) (m : member T) :
  has_property values locale = false ->
  fst (getLocalizedValue values locale fallbackLocales) = Normal (Some m) ->
  exists k x, m = Own x /\ In k (own_keys values) /\ get values k = Some (Own x).
Proof.
  intros Hkey. rewrite getLocalizedValue_unfold, Hkey.
  destruct (parseLocale locale) as [parsed|e]; cbn [fst]; [|discriminate].
  destruct (first_candidate_match _ values) as [x|] eqn:E; [|discriminate].
  intro H. injection H as <-.
  apply first_candidate_match_some in E as [c [k [_ [Hin [_ Hget]]]]].
  exists k, x. auto.
Qed.

Lemma getLocalizedValue_value_of_own_key_witness :
  has_property tied "eN-gb" = false
  /\ fst (getLocalizedValue tied "eN-gb" ["fr"]) = Normal (Some (Own "Hello"))
  /\ exists k x, Own "Hello" = Own x /\ In k (own_keys tied)
                 /\ get tied k = Some (Own x).
Proof.
  split; [reflexivity|]. split; [reflexivity|].
  exact (getLocalizedValue_value_of_own_key tied "eN-gb" ["fr"] (Own "Hello")
           eq_refl eq_refl).
Defined.

(** X4.  When [locale in values] is false and some key equals [locale]
    up to case, a call that returns gives the value of the first such key
    in creation order: neither the language tag nor any fallback locale
    is consulted, whatever they are. *)
Theorem getLocalizedValue_locale_before_fallbacks {T : Type} (values : JSObject T)
    (locale : string) (fallbackLocales : list string) (k : string)
    (r : option (member T)) :
  has_property values locale = false ->
  In k (own_keys values) -> matches locale k ->
  fst (getLocalizedValue values locale fallbackLocales) = Normal r ->
  exists x, first_key_match locale values = Some x /\ r = Some (Own x).
Proof.
  intros Hkey Hin Hm.
  destruct (first_key_match_found values locale k Hin Hm) as [x Hx].
  rewrite getLocalizedValue_unfold, Hkey.
  destruct (parseLocale locale) as [parsed|e]; cbn [fst]; [|discriminate].
  intro H. injection H as <-. exists x. split; [assumption|].
  destruct (truthy (subTag parsed)); simpl; now rewrite Hx.
Qed.

Lemma getLocalizedValue_locale_before_fallbacks_witness :
  has_property cased "en-GB" = false
  /\ fst (getLocalizedValue cased "en-GB" ["en"]) = Normal (Some (Own "Good day"))
  /\ exists x, first_key_match "en-GB" cased = Some x
               /\ Some (Own "Good day") = Some (Own x).
Proof.
  split; [reflexivity|]. split; [reflexivity|].
  refine (getLocalizedValue_locale_before_fallbacks cased "en-GB" ["en"] "EN-gb"
            (Some (Own "Good day")) eq_refl _ eq_refl eq_refl).
  right; left; reflexivity.
Defined.

(** X7.  Appending fallback locales never changes a value that is already
    found. *)
Theorem getLocalizedValue_more_fallbacks {T : Type} (values : JSObject T)
    (locale : string) (fallbackLocales more : list string) (x : member T) :
  fst (getLocalizedValue values locale fallbackLocales) = Normal (Some x) ->
  fst (getLocalizedValue values locale (fallbackLocales ++ more)) = Normal (Some x).
Proof.
  rewrite !getLocalizedValue_unfold.
  destruct (has_property values locale); [tauto|].
  destruct (parseLocale locale) as [parsed|e]; [|tauto].
  cbn [fst]. intro H. injection H as H. f_equal.
  destruct (truthy (subTag parsed)).
  - change (locale :: languageTag parsed :: fallbackLocales ++ more)
      with ((locale :: languageTag parsed :: fallbackLocales) ++ more).
    rewrite first_candidate_match_app.
    destruct (first_candidate_match _ values); [exact H | discriminate].
  - change (locale :: fallbackLocales ++ more)
      with ((locale :: fallbackLocales) ++ more).
    rewrite first_candidate_match_app.
    destruct (first_candidate_match _ values); [exact H | discriminate].
Qed.

Lemma getLocalizedValue_more_fallbacks_witness :
  fst (getLocalizedValue greetings "es" ["fr"]) = Normal (Some (Own "Bonjour"))
  /\ fst (getLocalizedValue greetings "es" (["fr"] ++ ["en"; "en-US"]))
     = Normal (Some (Own "Bonjour")).
Proof.
  split; [reflexivity|].
  exact (getLocalizedValue_more_fallbacks greetings "es" ["fr"] ["en"; "en-US"]
           (Own "Bonjour") eq_refl).
Defined.

(** X8.  Past the exact lookup the case of [locale] does not matter: two
    spellings of a locale that differ only in case, with [in] false for
    both, give the same outcome. *)
Theorem getLocalizedValue_locale_case {T : Type} (values : JSObject T)
    (locale locale' : string) (fallbackLocales : list string) :
  case_variant locale locale' ->
  has_property values locale = false ->
  has_property values locale' = false ->
  fst (getLocalizedValue values locale' fallbackLocales)
  = fst (getLocalizedValue values locale fallbackLocales).
Proof.
  intros Hcase Hkey Hkey'.
  rewrite !getLocalizedValue_unfold, Hkey, Hkey'.
  rewrite (case_variant_parseLocale locale locale' Hcase).
  destruct (parseLocale locale) as [parsed|e]; [|reflexivity].
  cbn [fst]. do 2 f_equal. apply first_candidate_match_lower.
  pose proof (case_variant_toLowerCase locale locale' Hcase) as Hlower.
  destruct (truthy (subTag parsed)); simpl; now rewrite Hlower.
Qed.

Lemma getLocalizedValue_locale_case_witness :
  case_variant "en-GB" "EN-gb"
  /\ fst (getLocalizedValue greetings "EN-gb" [])
     = fst (getLocalizedValue greetings "en-GB" []).
Proof.
  assert (Hcase : case_variant "en-GB" "EN-gb") by case_variant_by_chars.
  split; [exact Hcase|].
  exact (getLocalizedValue_locale_case greetings "en-GB" "EN-gb" [] Hcase
           eq_refl eq_refl).
Defined.

(** X9.  The case of the fallback locales does not matter either: two
    fallback lists with the same lower-cased entries give the same
    outcome. *)
Theorem getLocalizedValue_fallback_case {T : Type} (values : JSObject T)
    (locale : string) (fallbackLocales fallbackLocales' : list string) :
  map toLowerCase fallbackLocales = map toLowerCase fallbackLocales' ->
  getLocalizedValue values locale fallbackLocales
  = getLocalizedValue values locale fallbackLocales'.
Proof.
  intro Hlower. rewrite !getLocalizedValue_unfold.
  destruct (has_property values locale); [reflexivity|].
  destruct (parseLocale locale) as [parsed|e]; [|reflexivity].
  do 3 f_equal. apply first_candidate_match_lower.
  destruct (truthy (subTag parsed)); simpl; now rewrite Hlower.
Qed.

Lemma getLocalizedValue_fallback_case_witness :
  map toLowerCase ["FR"; "en-us"] = map toLowerCase ["fr"; "EN-US"]
  /\ getLocalizedValue greetings "es" ["FR"; "en-us"]
     = getLocalizedValue greetings "es" ["fr"; "EN-US"].
Proof.
  split; [reflexivity|].
  exact (getLocalizedValue_fallback_case greetings "es" ["FR"; "en-us"]
           ["fr"; "EN-US"] eq_refl).
Defined.

(** ** Subtags and hyphens *)

Lemma all_chars_impl (p q : ascii -> bool) (s : string) :
  (forall c, p c = true -> q c = true) ->
  all_chars p s = true -> all_chars q s = true.
Proof.
  intro Hpq. induction s as [|c s IH]; simpl; [reflexivity|].
  intro H. apply andb_true_iff in H as [Hc Hs].
  now rewrite (Hpq c Hc), (IH Hs).
Qed.

Lemma map_string_fixed (p : ascii -> bool) (f : ascii -> ascii) (s : string) :
  (forall c, p c = true -> f c = c) ->
  all_chars p s = true -> map_string f s = s.
Proof.
  intro Hf. induction s as [|c s IH]; simpl; [reflexivity|].
  intro H. apply andb_true_iff in H as [Hc Hs].
  now rewrite (Hf c Hc), (IH Hs).
Qed.

Lemma map_string_app (f : ascii -> ascii) (a b : string) :
  map_string f (a ++ b) = (map_string f a ++ map_string f b)%string.
Proof. induction a as [|c a IH]; simpl; [reflexivity | now rewrite IH]. Qed.

Lemma length_map_string (f : ascii -> ascii) (s : string) :
  String.length (map_string f s) = String.length s.
Proof. induction s as [|c s IH]; simpl; [reflexivity | now rewrite IH]. Qed.

Lemma lower_alphanum_not_hyphen (c : ascii) :
  is_lower_alphanum c = true -> negb (c =? "-")%char = true.
Proof. each_char c. Qed.

Lemma lower_alphanum_lower (c : ascii) :
  is_lower_alphanum c = true -> ascii_lower_char c = c.
Proof. each_char c. Qed.

Lemma lower_alphanum_upper_lower (c : ascii) :
  is_lower_alphanum c = true -> ascii_lower_char (ascii_upper_char c) = c.
Proof. each_char c. Qed.

Lemma lower_alpha_alphanum (c : ascii) :
  is_lower_alpha c = true -> is_lower_alphanum c = true.
Proof. unfold is_lower_alphanum. now intros ->. Qed.

Lemma digit_alphanum (c : ascii) :
  is_digit c = true -> is_lower_alphanum c = true.
Proof. unfold is_lower_alphanum. intros ->. apply orb_true_r. Qed.

Lemma not_hyphen_lower (c : ascii) :
  negb (c =? "-")%char = true -> negb (ascii_lower_char c =? "-")%char = true.
Proof. each_char c. Qed.

Lemma no_hyphen_lowercase (s : string) :
  no_hyphen s = true -> no_hyphen (ascii_lowercase s) = true.
Proof.
  unfold no_hyphen, ascii_lowercase.
  induction s as [|c s IH]; simpl; [reflexivity|].
  intro H. apply andb_true_iff in H as [Hc Hs].
  now rewrite (not_hyphen_lower c Hc), (IH Hs).
Qed.

Lemma alphanum_no_hyphen (s : string) :
  all_chars is_lower_alphanum s = true -> no_hyphen s = true.
Proof. apply all_chars_impl, lower_alphanum_not_hyphen. Qed.

Lemma split_hyphen_nonempty (s : string) : split_hyphen s <> [].
Proof.
  destruct s as [|c s]; simpl; [discriminate|].
  destruct (split_hyphen s); [discriminate|].
  destruct (c =? "-")%char; discriminate.
Qed.

Lemma split_hyphen_single (s : string) :
  no_hyphen s = true -> split_hyphen s = [s].
Proof.
  unfold no_hyphen. induction s as [|c s IH]; simpl; [reflexivity|].
  intro H. apply andb_true_iff in H as [Hc Hs]. rewrite (IH Hs).
  apply negb_true_iff in Hc. now rewrite Hc.
Qed.

Lemma split_hyphen_app (a b : string) :
  no_hyphen a = true ->
  split_hyphen (a ++ String "-" b) = a :: split_hyphen b.
Proof.
  unfold no_hyphen. induction a as [|c a IH]; simpl.
  - intros _. pose proof (split_hyphen_nonempty b) as Hb.
    now destruct (split_hyphen b).
  - intro H. apply andb_true_iff in H as [Hc Ha]. rewrite (IH Ha).
    apply negb_true_iff in Hc. now rewrite Hc.
Qed.

Lemma language_subtag_alphanum (t : string) :
  is_language_subtag t = true -> all_chars is_lower_alphanum t = true.
Proof.
  unfold is_language_subtag. intro H. apply andb_true_iff in H as [H _].
  exact (all_chars_impl _ _ t lower_alpha_alphanum H).
Qed.

Lemma script_subtag_alphanum (t : string) :
  is_script_subtag t = true -> all_chars is_lower_alphanum t = true.
Proof.
  unfold is_script_subtag. intro H. apply andb_true_iff in H as [H _].
  exact (all_chars_impl _ _ t lower_alpha_alphanum H).
Qed.

Lemma region_subtag_alphanum (t : string) :
  is_region_subtag t = true -> all_chars is_lower_alphanum t = true.
Proof.
  unfold is_region_subtag. intro H.
  apply orb_true_iff in H as [H | H]; apply andb_true_iff in H as [H _].
  - exact (all_chars_impl _ _ t lower_alpha_alphanum H).
  - exact (all_chars_impl _ _ t digit_alphanum H).
Qed.

Lemma region_not_script (t : string) :
  is_region_subtag t = true -> is_script_subtag t = false.
Proof.
  unfold is_region_subtag, is_script_subtag, length_in. intro H.
  apply andb_false_iff. right.
  rewrite !orb_true_iff, !andb_true_iff, !Nat.leb_le in H.
  apply andb_false_iff. rewrite !Nat.leb_gt. lia.
Qed.

Lemma lowercase_alphanum (t : string) :
  all_chars is_lower_alphanum t = true -> ascii_lowercase t = t.
Proof. apply map_string_fixed, lower_alphanum_lower. Qed.

Lemma lowercase_uppercase (t : string) :
  all_chars is_lower_alphanum t = true -> ascii_lowercase (ascii_uppercase t) = t.
Proof.
  unfold ascii_lowercase, ascii_uppercase.
  induction t as [|c t IH]; simpl; [reflexivity|].
  intro H. apply andb_true_iff in H as [Hc Ht].
  now rewrite (lower_alphanum_upper_lower c Hc), (IH Ht).
Qed.

Lemma lowercase_titlecase (t : string) :
  all_chars is_lower_alphanum t = true -> ascii_lowercase (ascii_titlecase t) = t.
Proof.
  destruct t as [|c t]; simpl; [reflexivity|].
  intro H. apply andb_true_iff in H as [Hc Ht].
  unfold ascii_lowercase; simpl.
  rewrite (lower_alphanum_upper_lower c Hc).
  now rewrite !(map_string_fixed _ _ t lower_alphanum_lower Ht).
Qed.

(** A single subtag is a tag exactly when it is a language subtag. *)
Lemma Intl_Locale_single (s : string) :
  no_hyphen s = true ->
  Intl_Locale s =
  if is_language_subtag (ascii_lowercase s)
  then Normal {| language := ascii_lowercase s; script := None; region := None |}
  else Throw RangeError.
Proof.
  intro H. unfold Intl_Locale.
  rewrite (split_hyphen_single _ (no_hyphen_lowercase s H)).
  now destruct (is_language_subtag (ascii_lowercase s)).
Qed.

(** A language subtag followed by one more subtag, as the tag is split. *)
Lemma split_language_subtag (lang tok recased : string) :
  is_language_subtag lang = true ->
  all_chars is_lower_alphanum tok = true ->
  ascii_lowercase recased = tok ->
  split_hyphen (ascii_lowercase (lang ++ "-" ++ recased)) = [lang; tok].
Proof.
  intros Hlang Htok Hre.
  pose proof (language_subtag_alphanum lang Hlang) as Hl.
  unfold ascii_lowercase in *. rewrite map_string_app. simpl.
  change (ascii_lower_char "-") with "-"%char.
  rewrite (map_string_fixed _ _ lang lower_alphanum_lower Hl), Hre.
  rewrite (split_hyphen_app lang tok (alphanum_no_hyphen lang Hl)).
  now rewrite (split_hyphen_single tok (alphanum_no_hyphen tok Htok)).
Qed.

Lemma parseLocale_language_region (lang tok : string) :
  is_language_subtag lang = true -> is_region_subtag tok = true ->
  parseLocale (lang ++ "-" ++ ascii_uppercase tok)
  = Normal {| languageTag := lang; subTag := Some (ascii_uppercase tok) |}.
Proof.
  intros Hlang Htok.
  pose proof (region_subtag_alphanum tok Htok) as Ha.
  unfold parseLocale, Intl_Locale.
  rewrite (split_language_subtag lang tok _ Hlang Ha (lowercase_uppercase tok Ha)).
  rewrite Hlang. unfold take_subtag.
  rewrite (region_not_script tok Htok), Htok.
  cbn [take_subtags no_duplicates valid_extensions may_end andb option_map
       language script region].
  unfold js_or. now rewrite !(region_truthy tok Htok).
Qed.

Lemma parseLocale_language_script (lang tok : string) :
  is_language_subtag lang = true -> is_script_subtag tok = true ->
  parseLocale (lang ++ "-" ++ ascii_titlecase tok)
  = Normal {| languageTag := lang; subTag := Some (ascii_titlecase tok) |}.
Proof.
  intros Hlang Htok.
  pose proof (script_subtag_alphanum tok Htok) as Ha.
  unfold parseLocale, Intl_Locale.
  rewrite (split_language_subtag lang tok _ Hlang Ha (lowercase_titlecase tok Ha)).
  rewrite Hlang. unfold take_subtag. rewrite Htok.
  cbn [take_subtags no_duplicates valid_extensions may_end andb option_map
       language script region].
  unfold js_or. change (truthy None) with false. cbv iota.
  now rewrite (script_truthy tok Htok).
Qed.

Lemma length_in_exact (n : nat) (s : string) :
  length_in n n s = true -> String.length s = n.
Proof.
  unfold length_in. rewrite andb_true_iff, !Nat.leb_le. lia.
Qed.

Lemma upper_alpha_of_lower (c : ascii) :
  is_lower_alpha c = true -> is_upper_alpha (ascii_upper_char c) = true.
Proof. each_char c. Qed.

Lemma upper_of_digit_fixed (c : ascii) :
  is_digit c = true -> ascii_upper_char c = c.
Proof. each_char c. Qed.

Lemma lower_of_lower_alpha (c : ascii) :
  is_lower_alpha c = true -> ascii_lower_char c = c.
Proof. each_char c. Qed.

Lemma lower_char_of_lower_alpha (c : ascii) :
  is_lower_alpha c = true -> lower_char c = c.
Proof. each_char c. Qed.

Lemma uppercase_all_upper (t : string) :
  all_chars is_lower_alpha t = true ->
  all_chars is_upper_alpha (ascii_uppercase t) = true.
Proof.
  unfold ascii_uppercase. induction t as [|c t IH]; simpl; [reflexivity|].
  intro H. apply andb_true_iff in H as [Hc Ht].
  now rewrite (upper_alpha_of_lower c Hc), (IH Ht).
Qed.

Lemma string_length_app (a b : string) :
  String.length (a ++ b) = String.length a + String.length b.
Proof. induction a as [|c a IH]; simpl; [reflexivity | now rewrite IH]. Qed.

Lemma includes_family_name_first (locale : string) :
  includes familyNameFirstLocales locale = true <-> family_name_first locale.
Proof.
  unfold includes, familyNameFirstLocales, family_name_first.
  cbn [existsb]. rewrite !orb_true_iff, !String.eqb_eq.
  intuition (try discriminate; auto).
Qed.

(** Each of the seven identifiers has upper-case letters. *)
Lemma lower_case_not_family_name_first (locale : string) :
  toLowerCase locale = locale -> includes familyNameFirstLocales locale = false.
Proof.
  intro Hlower.
  destruct (includes familyNameFirstLocales locale) eqn:E; [|reflexivity].
  apply includes_family_name_first in E.
  destruct E as [-> | [-> | [-> | [-> | [-> | [-> | ->]]]]]]; discriminate.
Qed.

(** ** [parseLocale] *)

(** X10.  The language tag that [parseLocale] returns is itself a locale
    the parser accepts, and parses to itself with no subtag. *)
Theorem parseLocale_languageTag_again (locale : string) (parsed : ParsedLocale) :
  parseLocale locale = Normal parsed ->
  parseLocale (languageTag parsed)
  = Normal {| languageTag := languageTag parsed; subTag := None |}.
Proof.
  intro Hparse.
  destruct (parseLocale_Normal_inv locale parsed Hparse) as [loc Hloc].
  rewrite (parseLocale_of_Locale locale loc Hloc) in Hparse.
  injection Hparse as <-. cbn [languageTag].
  destruct (Intl_Locale_fields locale loc Hloc) as [Hlang _].
  pose proof (language_subtag_alphanum _ Hlang) as Ha.
  unfold parseLocale.
  rewrite (Intl_Locale_single _ (alphanum_no_hyphen _ Ha)).
  now rewrite (lowercase_alphanum _ Ha), Hlang.
Qed.

Lemma parseLocale_languageTag_again_witness :
  parseLocale "ZH-hant-hk" = Normal {| languageTag := "zh"; subTag := Some "HK" |}
  /\ parseLocale "zh" = Normal {| languageTag := "zh"; subTag := None |}.
Proof.
  split; [reflexivity|].
  exact (parseLocale_languageTag_again "ZH-hant-hk"
           {| languageTag := "zh"; subTag := Some "HK" |} eq_refl).
Defined.

(** X11.  Joining the language tag and the subtag that [parseLocale]
    returns with a hyphen gives a locale that parses to the same pair. *)
Theorem parseLocale_rebuild (locale : string) (parsed : ParsedLocale) (r : string) :
  parseLocale locale = Normal parsed ->
  subTag parsed = Some r ->
  parseLocale (languageTag parsed ++ "-" ++ r) = Normal parsed.
Proof.
  intros Hparse Hsub.
  destruct (parseLocale_Normal_inv locale parsed Hparse) as [loc Hloc].
  rewrite (parseLocale_of_Locale locale loc Hloc) in Hparse.
  injection Hparse as <-. cbn [languageTag subTag] in *.
  destruct (Intl_Locale_fields locale loc Hloc) as [Hlang [Hscript Hregion]].
  destruct (region loc) as [r0|].
  - injection Hsub as ->. destruct (Hregion r eq_refl) as [tok [Htok ->]].
    exact (parseLocale_language_region _ tok Hlang Htok).
  - rewrite Hsub. destruct (Hscript r Hsub) as [tok [Htok ->]].
    exact (parseLocale_language_script _ tok Hlang Htok).
Qed.

Lemma parseLocale_rebuild_witness :
  parseLocale "ZH-hant-hk-u-nu-latn"
  = Normal {| languageTag := "zh"; subTag := Some "HK" |}
  /\ parseLocale "zh-HK" = Normal {| languageTag := "zh"; subTag := Some "HK" |}.
Proof.
  split; [reflexivity|].
  exact (parseLocale_rebuild "ZH-hant-hk-u-nu-latn"
           {| languageTag := "zh"; subTag := Some "HK" |} "HK" eq_refl eq_refl).
Defined.

(** X12.  What [parseLocale] returns has a fixed shape: the language tag
    has 2, 3 or 5 to 8 characters, and a subtag is two upper-case letters,
    three digits, or four letters of which only the first is upper-case.
    A variant or an extension is never returned as the subtag. *)
Theorem parseLocale_shape (locale : string) (parsed : ParsedLocale) :
  parseLocale locale = Normal parsed ->
  (2 <= String.length (languageTag parsed) <= 3
   \/ 5 <= String.length (languageTag parsed) <= 8)
  /\ match subTag parsed with
     | Some r =>
         (String.length r = 2 /\ all_chars is_upper_alpha r = true)
         \/ (String.length r = 3 /\ all_chars is_digit r = true)
         \/ (String.length r = 4
             /\ exists c rest, r = String c rest
                               /\ is_upper_alpha c = true
                               /\ all_chars is_lower_alpha rest = true)
     | None => True
     end.
Proof.
  intro Hparse.
  destruct (parseLocale_Normal_inv locale parsed Hparse) as [loc Hloc].
  rewrite (parseLocale_of_Locale locale loc Hloc) in Hparse.
  injection Hparse as <-. cbn [languageTag subTag].
  destruct (Intl_Locale_fields locale loc Hloc) as [Hlang [Hscript Hregion]].
  split.
  - unfold is_language_subtag, length_in in Hlang.
    rewrite andb_true_iff, orb_true_iff, !andb_true_iff, !Nat.leb_le in Hlang. lia.
  - destruct (region loc) as [r|].
    + destruct (Hregion r eq_refl) as [tok [Htok ->]].
      unfold is_region_subtag in Htok.
      apply orb_true_iff in Htok as [H | H]; apply andb_true_iff in H as [Hc Hl];
        apply length_in_exact in Hl.
      * left. split; [|now apply uppercase_all_upper].
        unfold ascii_uppercase. now rewrite length_map_string.
      * right; left.
        unfold ascii_uppercase.
        rewrite (map_string_fixed _ _ tok upper_of_digit_fixed Hc). now split.
    + destruct (script loc) as [s|]; [|exact I].
      destruct (Hscript s eq_refl) as [tok [Htok ->]].
      unfold is_script_subtag in Htok. apply andb_true_iff in Htok as [Hc Hl].
      apply length_in_exact in Hl. right; right.
      destruct tok as [|c rest]; [discriminate|].
      simpl in Hc. apply andb_true_iff in Hc as [Hc Hrest].
      unfold ascii_titlecase, ascii_lowercase.
      rewrite (map_string_fixed _ _ rest lower_of_lower_alpha Hrest).
      split; [exact Hl|].
      exists (ascii_upper_char c), rest.
      split; [reflexivity|]. split; [now apply upper_alpha_of_lower | exact Hrest].
Qed.

Lemma parseLocale_shape_witness :
  parseLocale "sr-cyrl-fonipa"
  = Normal {| languageTag := "sr"; subTag := Some "Cyrl" |}
  /\ (2 <= String.length "sr" <= 3 \/ 5 <= String.length "sr" <= 8)
  /\ ((String.length "Cyrl" = 2 /\ all_chars is_upper_alpha "Cyrl" = true)
      \/ (String.length "Cyrl" = 3 /\ all_chars is_digit "Cyrl" = true)
      \/ (String.length "Cyrl" = 4
          /\ exists c rest, "Cyrl" = String c rest
                            /\ is_upper_alpha c = true
                            /\ all_chars is_lower_alpha rest = true)).
Proof.
  split; [reflexivity|].
  exact (parseLocale_shape "sr-cyrl-fonipa"
           {| languageTag := "sr"; subTag := Some "Cyrl" |} eq_refl).
Defined.

(** X13.  On a locale without a hyphen [parseLocale] throws exactly when
    the locale is not made of 2, 3 or 5 to 8 ASCII letters: the empty
    string, one letter, four letters, nine letters and more, and anything
    with a digit or another character make it throw. *)
Theorem parseLocale_single_subtag_throws (locale : string) :
  no_hyphen locale = true ->
  (parseLocale locale = Throw RangeError
   <-> is_language_subtag (ascii_lowercase locale) = false).
Proof.
  intro H. unfold parseLocale. rewrite (Intl_Locale_single locale H).
  destruct (is_language_subtag (ascii_lowercase locale)).
  - split; discriminate.
  - split; reflexivity.
Qed.

Lemma parseLocale_single_subtag_throws_witness :
  no_hyphen "engl" = true
  /\ is_language_subtag (ascii_lowercase "engl") = false
  /\ parseLocale "engl" = Throw RangeError.
Proof.
  split; [reflexivity|]. split; [reflexivity|].
  exact (proj2 (parseLocale_single_subtag_throws "engl" eq_refl) eq_refl).
Defined.

(** ** [formatFullname] *)

(** X14.  The formatted name is the two names and one separator, nothing
    added, trimmed or dropped: its length is the sum of the two lengths
    plus one, for every locale. *)
Theorem formatFullname_length (givenName familyName locale : string) :
  String.length (formatFullname givenName familyName locale)
  = String.length givenName + String.length familyName + 1.
Proof.
  unfold formatFullname.
  destruct (includes familyNameFirstLocales locale);
    rewrite !string_length_app; simpl; lia.
Qed.

(** X15.  [formatFullname] compares the locale case-sensitively: a locale
    written in lower case throughout, such as "ja-jp", gets the given name
    first. *)
Theorem formatFullname_lower_case_locale (givenName familyName locale : string) :
  toLowerCase locale = locale ->
  formatFullname givenName familyName locale
  = (givenName ++ " " ++ familyName)%string.
Proof.
  intro Hlower. unfold formatFullname.
  now rewrite (lower_case_not_family_name_first locale Hlower).
Qed.

Lemma formatFullname_lower_case_locale_witness :
  toLowerCase "ja-jp" = "ja-jp"
  /\ formatFullname "Taro" "Yamada" "ja-jp" = "Taro Yamada"
  /\ formatFullname "Taro" "Yamada" "ja-JP" = "Yamada Taro".
Proof.
  split; [reflexivity|]. split; [|reflexivity].
  exact (formatFullname_lower_case_locale "Taro" "Yamada" "ja-jp" eq_refl).
Defined.

(** X16.  The language tag that [parseLocale] returns never selects the
    family-name-first order, whatever locale it was parsed from: passing
    it to [formatFullname] in place of the locale loses the region that
    the seven identifiers require. *)
Theorem formatFullname_of_languageTag (givenName familyName locale : string)
    (parsed : ParsedLocale) :
  parseLocale locale = Normal parsed ->
  formatFullname givenName familyName (languageTag parsed)
  = (givenName ++ " " ++ familyName)%string.
Proof.
  intro Hparse.
  destruct (parseLocale_Normal_inv locale parsed Hparse) as [loc Hloc].
  rewrite (parseLocale_of_Locale locale loc Hloc) in Hparse.
  injection Hparse as <-. cbn [languageTag].
  destruct (Intl_Locale_fields locale loc Hloc) as [Hlang _].
  unfold is_language_subtag in Hlang. apply andb_true_iff in Hlang as [Hlang _].
  unfold formatFullname.
  rewrite lower_case_not_family_name_first; [reflexivity|].
  exact (map_string_fixed _ _ _ lower_char_of_lower_alpha Hlang).
Qed.

Lemma formatFullname_of_languageTag_witness :
  parseLocale "ja-JP" = Normal {| languageTag := "ja"; subTag := Some "JP" |}
  /\ formatFullname "Taro" "Yamada" "ja" = "Taro Yamada".
Proof.
  split; [reflexivity|].
  exact (formatFullname_of_languageTag "Taro" "Yamada" "ja-JP"
           {| languageTag := "ja"; subTag := Some "JP" |} eq_refl).
Defined.
